(** * kam1k4dze/utools: the compile-time C-string obfuscator

    A shallow embedding of [src/kam1k4dze/utools/cstring_obfuscator.hpp]
    (namespace [crypt]): the key derivation
    ([linear_congruent_generator], [Random], [XSTR_RANDOM_NUMBER],
    [XORKEY]), the per-character transform ([encrypt_character]) and
    the class template [Xor_string] with its constructor and
    [decrypt], the macros [XorS], [XorString], [XorWS] and
    [XorWideString], and of the scope-exit helper of
    [src/kam1k4dze/utools/defer.hpp].

    C++ integers are modelled as [Z] with the conversions and the
    wrap-around of each operation written out; a character is the
    bit pattern it occupies in the buffer, a [Z] in [0, 2^bits). *)

From Stdlib Require Import ZArith Lia Bool.
From stdpp Require Import base option list.

Local Open Scope Z_scope.

(** ** The integer types of the source *)

Module Cxx.

(** Conversion to an unsigned type of [w] bits keeps the low [w] bits. *)
Definition wrap (w z : Z) : Z := z mod 2 ^ w.

(** The value of a [w]-bit pattern read as a two's complement number. *)
Definition signed (w z : Z) : Z :=
  if z <? 2 ^ (w - 1) then z else z - 2 ^ w.

(** [unsigned long long], [unsigned] and [int]. *)
Definition to_ull (z : Z) : Z := wrap 64 z.
Definition to_unsigned (z : Z) : Z := wrap 32 z.
Definition to_int (z : Z) : Z := signed 32 (wrap 32 z).

(** The [%] of the source; a zero divisor has no result. *)
Definition checked_mod (a b : Z) : option Z :=
  if b =? 0 then None else Some (a mod b).

(** A character type: its width and whether it is signed.  [char] is
    8 bits, signed or not by platform; [wchar_t] is 32 bits signed or
    16 bits unsigned. *)
Record char_type : Type := CharType { bits : Z; is_signed : bool }.

Definition char_signed : char_type := CharType 8 true.
Definition char_unsigned : char_type := CharType 8 false.
Definition wchar_32 : char_type := CharType 32 true.
Definition wchar_16 : char_type := CharType 16 false.

(** The widths the source is instantiated at. *)
Definition supported (cT : char_type) : Prop := 8 <= bits cT <= 32.

(** A well-formed buffer element. *)
Definition in_range (cT : char_type) (c : Z) : Prop :=
  0 <= c < 2 ^ bits cT.

(** [static_cast<Char>(z)]: the pattern of [z] at the width of [Char]. *)
Definition static_cast (cT : char_type) (z : Z) : Z := wrap (bits cT) z.

(** Integral promotion of a stored character: its mathematical value. *)
Definition promote (cT : char_type) (c : Z) : Z :=
  if is_signed cT then signed (bits cT) c else c.

End Cxx.

Import Cxx.

(** ** Key derivation *)

(** [#define TBX_XSTR_SEED (3421ull)] unless the user defines it. *)
Definition TBX_XSTR_SEED_default : Z := 3421.

(** The modulus [0xFFFFFFFF] of the generator. *)
Definition lcg_modulus : Z := 0xFFFFFFFF.

(** [linear_congruent_generator(rounds)], with the seed macro as a
    parameter.  In the source [%] binds tighter than [+]:
    [1013904223ull + (1664525ull * (...)) % 0xFFFFFFFF]. *)
Fixpoint linear_congruent_generator (seed : Z) (rounds : nat) : Z :=
  to_ull (1013904223 +
          to_ull (1664525 *
                  match rounds with
                  | S r => linear_congruent_generator seed r
                  | O => to_ull seed
                  end) mod lcg_modulus).

(** The same function with [rounds] as the 32-bit unsigned number it
    is, the recursive call on [rounds - 1] bounded by a call depth and
    the division checked. *)
Fixpoint lcg_eval (depth : nat) (seed rounds : Z) : option Z :=
  match depth with
  | O => None
  | S d =>
      inner ← (if 0 <? rounds
               then lcg_eval d seed (to_unsigned (rounds - 1))
               else Some (to_ull seed));
      r ← checked_mod (to_ull (1664525 * inner)) lcg_modulus;
      Some (to_ull (1013904223 + r))
  end.

(** [#define Random() linear_congruent_generator(10)] *)
Definition Random (seed : Z) : Z := linear_congruent_generator seed 10.

(** [#define XSTR_RANDOM_NUMBER(Min, Max) (Min + (Random() % (Max - Min + 1)))];
    [Max - Min + 1] is computed on [int] and converted for [%]. *)
Definition XSTR_RANDOM_NUMBER (seed Min Max : Z) : Z :=
  to_ull (Min + Random seed mod to_ull (to_int (Max - Min + 1))).

(** [constexpr const unsigned long long XORKEY = XSTR_RANDOM_NUMBER(0, 0xFF);] *)
Definition XORKEY (seed : Z) : Z := XSTR_RANDOM_NUMBER seed 0 0xFF.

(** The recurrence as the specification words it: the whole sum is
    reduced, and the state after [n] steps is the output. *)
Fixpoint spec_state (seed : Z) (n : nat) : Z :=
  match n with
  | O => seed
  | S k => (1013904223 + 1664525 * spec_state seed k) mod lcg_modulus
  end.

(** ** The character transform and the obfuscated string *)

Section Obfuscator.

(** The template parameter [Char] and the seed of the build. *)
Variable cT : char_type.
Variable seed : Z.

(** [encrypt_character<Char>(character, index)]:
    [character ^ (static_cast<Char>(XORKEY) + index)], computed on
    [int] after promotion and converted back to [Char] on return. *)
Definition encrypt_character (character index : Z) : Z :=
  static_cast cT
    (Z.lxor (promote cT character)
            (to_int (promote cT (static_cast cT (XORKEY seed)) + index))).

(** The body of the loop of [decrypt]:
    [string[t] ^ (static_cast<Char>(XORKEY) + t)] with [t] unsigned,
    so both operands are converted to [unsigned]; the assignment
    converts the result to [Char]. *)
Definition decrypt_character (character t : Z) : Z :=
  static_cast cT
    (Z.lxor (to_unsigned (promote cT character))
            (to_unsigned
               (to_unsigned (promote cT (static_cast cT (XORKEY seed))) + t))).

(** An object of class [Xor_string<size, Char>]. *)
Record Xor_string : Type := MkXor_string {
  _nb_chars : nat;
  _string : list Z
}.

(** [string[i]] on the argument of the constructor. *)
Definition string_at (string : list Z) (i : nat) : Z :=
  default 0 (string !! i).

(** [for (unsigned i = 0u; i < size; ++i)
       _string[i] = encrypt_character<Char>(string[i], i);] *)
Definition ctor_loop (size : nat) (string buf : list Z) : list Z :=
  foldl (fun b i =>
           <[i := encrypt_character (string_at string i)
                    (to_int (Z.of_nat i))]> b)
        buf (seq 0 size).

(** The constructor: [_nb_chars = size - 1] on [unsigned], [_string{}]
    zero-initialised, then the loop over all [size] elements. *)
Definition Xor_string_ctor (size : nat) (string : list Z) : Xor_string :=
  {| _nb_chars := Z.to_nat (to_unsigned (Z.of_nat size - 1));
     _string := ctor_loop size string (replicate size 0) |}.

(** [for (unsigned t = 0; t < _nb_chars; t++)
       string[t] = string[t] ^ (static_cast<Char>(XORKEY) + t);] *)
Definition decrypt_loop (n : nat) (buf : list Z) : list Z :=
  foldl (fun b t =>
           <[t := decrypt_character (string_at b t) (Z.of_nat t)]> b)
        buf (seq 0 n).

(** [decrypt()]: the loop, then [string[_nb_chars] = '\0'].  The
    object is mutated in place; the returned pointer is its
    [_string]. *)
Definition decrypt (x : Xor_string) : Xor_string :=
  {| _nb_chars := _nb_chars x;
     _string := <[_nb_chars x := 0]> (decrypt_loop (_nb_chars x) (_string x)) |}.

(** The mask applied at position [i], at the width of [Char]. *)
Definition mask (i : nat) : Z := wrap (bits cT) (XORKEY seed + Z.of_nat i).

End Obfuscator.

(** The size of a well-formed object: at least the terminator, and a
    value of the [unsigned] template parameter. *)
Definition valid_size (size : nat) : Prop :=
  (1 <= size)%nat /\ Z.of_nat size < 2 ^ 32.

(** The literal ["Hello"] with its terminator, as [char] patterns. *)
Definition hello : list Z := [72; 101; 108; 108; 111; 0].

(** The state of an object of [Xor_string<size, Char>] at any point of
    its life: the length field, the [size] elements of the array, each
    a pattern of [Char]. *)
Definition well_formed (cT : char_type) (size : nat) (x : Xor_string) : Prop :=
  _nb_chars x = (size - 1)%nat
  /\ length (_string x) = size
  /\ Forall (in_range cT) (_string x).

(** ** The macros *)

(** [sizeof(char)] and [sizeof(wchar_t)], in bytes. *)
Definition sizeof_Char (cT : char_type) : Z := bits cT / 8.

(** [sizeof(my_string)] for a literal given with its terminator. *)
Definition sizeof_literal (cT : char_type) (my_string : list Z) : Z :=
  Z.of_nat (length my_string) * sizeof_Char cT.

(** The template argument [(sizeof(my_string) / sizeof(char))] of
    [XorS] and [XorString], [(sizeof(my_string) / sizeof(wchar_t))] of
    [XorWS] and [XorWideString]. *)
Definition macro_size (cT : char_type) (my_string : list Z) : nat :=
  Z.to_nat (sizeof_literal cT my_string / sizeof_Char cT).

(** [XorS(name, my_string)] and [XorWS(name, my_string)]: the object
    [name] the macro declares. *)
Definition XorS (cT : char_type) (seed : Z) (my_string : list Z) : Xor_string :=
  Xor_string_ctor cT seed (macro_size cT my_string) my_string.

(** [XorString(my_string)] and [XorWideString(my_string)] (and their
    aliases [_c], [_cw]): the lambda returns a copy of the object built
    at compile time, and [decrypt] runs on that copy; the value is the
    buffer the returned pointer designates. *)
Definition XorString (cT : char_type) (seed : Z) (my_string : list Z) : list Z :=
  _string (decrypt cT seed (XorS cT seed my_string)).

(** ** The scope-exit helper of [defer.hpp] *)

Module Defer.

Section Scope.

(** What the deferred calls and the statements of a block act on. *)
Variable State : Type.

(** [struct defer_dummy {};] *)
Inductive defer_dummy : Type := DeferDummy.

(** [template <class F> struct deferrer { F f; ~deferrer() { f(); } };]
    with [F] a lambda capturing by reference: a function of the state
    at the time it is called. *)
Record deferrer : Type := MkDeferrer { f : State -> State }.

(** [~deferrer() { f(); }] *)
Definition deferrer_dtor (d : deferrer) (s : State) : State := f d s.

(** [template <class F> deferrer<F> operator*(defer_dummy, F f) { return {f}; }] *)
Definition defer_mul (_ : defer_dummy) (g : State -> State) : deferrer :=
  MkDeferrer g.

(** The statements of a block that uses the macro: an ordinary
    statement, [defer { ... };] and [return]. *)
Inductive stmt : Type :=
| Do (a : State -> State)
| Defer (g : State -> State)
| Return.

(** Leaving a block destroys its automatic objects, the one declared
    last first; [live] lists them in that order. *)
Definition leave (live : list deferrer) (s : State) : State :=
  foldl (fun s' d => deferrer_dtor d s') s live.

(** Running a block.  [defer] declares
    [auto zz_deferLINE = defer_dummy{} * [&]() { ... }], a new automatic
    object; the end of the block and [return] both leave it. *)
Fixpoint run (body : list stmt) (live : list deferrer) (s : State) : State :=
  match body with
  | [] => leave live s
  | Do a :: rest => run rest live (a s)
  | Defer g :: rest => run rest (defer_mul DeferDummy g :: live) s
  | Return :: _ => leave live s
  end.

Definition block (body : list stmt) (s : State) : State := run body [] s.

End Scope.

End Defer.

(** Closed goals on concrete inputs. *)
Local Ltac concrete :=
  first [ reflexivity | lia
        | vm_compute; first [ reflexivity | discriminate
                            | intuition discriminate ] ].

Local Ltac all_in_range :=
  repeat (apply Forall_cons; split; [unfold in_range; concrete |]);
  apply Forall_nil_2.

(** ** Arithmetic of the conversions *)

Section Conversions.

Lemma wrap_range w z : 0 <= w -> 0 <= wrap w z < 2 ^ w.
Proof. intros Hw. unfold wrap. apply Z.mod_pos_bound. lia. Qed.

Lemma wrap_small w z : 0 <= z < 2 ^ w -> wrap w z = z.
Proof. intros Hz. unfold wrap. now apply Z.mod_small. Qed.

Lemma wrap_idem w z : 0 <= w -> wrap w (wrap w z) = wrap w z.
Proof. intros Hw. apply wrap_small, wrap_range, Hw. Qed.

Lemma wrap_testbit w z n :
  0 <= w -> Z.testbit (wrap w z) n = (n <? w) && Z.testbit z n.
Proof.
  intros Hw. unfold wrap. destruct (Z.ltb_spec n w) as [Hlt | Hge]; simpl.
  - destruct (Z.neg_nonneg_cases n) as [Hn | Hn].
    + now rewrite !Z.testbit_neg_r.
    + apply Z.mod_pow2_bits_low. lia.
  - apply Z.mod_pow2_bits_high. lia.
Qed.

(** Truncation commutes with exclusive or. *)
Lemma wrap_lxor w a b :
  0 <= w -> wrap w (Z.lxor a b) = Z.lxor (wrap w a) (wrap w b).
Proof.
  intros Hw. apply Z.bits_inj'. intros n _.
  rewrite Z.lxor_spec, !wrap_testbit, Z.lxor_spec by assumption.
  destruct (n <? w); reflexivity.
Qed.

(** Truncating twice is truncating to the narrower width. *)
Lemma wrap_wrap_le w w' z :
  0 <= w <= w' -> wrap w (wrap w' z) = wrap w z.
Proof.
  intros Hw. apply Z.bits_inj'. intros n _.
  rewrite !wrap_testbit by lia.
  destruct (Z.ltb_spec n w), (Z.ltb_spec n w'); simpl; try reflexivity; lia.
Qed.

Lemma wrap_signed w z : 0 <= w -> wrap w (signed w z) = wrap w z.
Proof.
  intros Hw. unfold signed, wrap. destruct (z <? 2 ^ (w - 1)); [reflexivity |].
  replace (z - 2 ^ w) with (z + (-1) * 2 ^ w) by ring.
  apply Z.mod_add. apply Z.pow_nonzero; lia.
Qed.

Lemma wrap_add w a b : wrap w (wrap w a + b) = wrap w (a + b).
Proof. unfold wrap. now rewrite Zplus_mod_idemp_l. Qed.

Lemma wrap_to_int w z : 0 <= w <= 32 -> wrap w (to_int z) = wrap w z.
Proof.
  intros Hw. unfold to_int.
  rewrite <- (wrap_wrap_le w 32 (signed _ _)) by assumption.
  rewrite wrap_signed by lia. rewrite !wrap_wrap_le by lia. reflexivity.
Qed.

Lemma wrap_to_unsigned w z : 0 <= w <= 32 -> wrap w (to_unsigned z) = wrap w z.
Proof. intros Hw. unfold to_unsigned. now apply wrap_wrap_le. Qed.

Lemma wrap_promote cT c :
  0 <= bits cT -> wrap (bits cT) (promote cT c) = wrap (bits cT) c.
Proof.
  intros Hw. unfold promote. destruct (is_signed cT); [| reflexivity].
  now apply wrap_signed.
Qed.

Lemma to_ull_small z : 0 <= z < 2 ^ 64 -> to_ull z = z.
Proof. apply wrap_small. Qed.

(** Exclusive or of two patterns is a pattern. *)
Lemma lxor_in_range cT a b :
  0 <= bits cT -> in_range cT a -> in_range cT b -> in_range cT (Z.lxor a b).
Proof.
  intros Hw Ha Hb. unfold in_range in *.
  rewrite <- (wrap_small (bits cT) a), <- (wrap_small (bits cT) b) by assumption.
  rewrite <- wrap_lxor by assumption. now apply wrap_range.
Qed.

(** A mask leaves a character unchanged only when it is zero. *)
Lemma lxor_fixed_iff c m : Z.lxor c m = c <-> m = 0.
Proof.
  split.
  - intros H. apply (f_equal (Z.lxor c)) in H.
    now rewrite <- Z.lxor_assoc, Z.lxor_nilpotent, Z.lxor_0_l in H.
  - intros ->. apply Z.lxor_0_r.
Qed.

End Conversions.

(** ** Key derivation: range, recurrence, evaluation *)

Section KeyDerivation.

Lemma lcg_modulus_pos : 0 < lcg_modulus.
Proof. reflexivity. Qed.

(** One unfolding of the generator. *)
Lemma lcg_unfold seed rounds :
  linear_congruent_generator seed rounds =
  to_ull (1013904223 +
          to_ull (1664525 *
                  match rounds with
                  | S r => linear_congruent_generator seed r
                  | O => to_ull seed
                  end) mod lcg_modulus).
Proof. destruct rounds; reflexivity. Qed.

(** The sum never reaches 2^64, so the outer conversion is exact; the
    output lies between the increment and increment + modulus. *)
Lemma lcg_bounds seed rounds :
  1013904223 <= linear_congruent_generator seed rounds
             < 1013904223 + lcg_modulus.
Proof.
  rewrite lcg_unfold.
  set (p := to_ull _ mod lcg_modulus).
  assert (Hp : 0 <= p < lcg_modulus)
    by (apply Z.mod_pos_bound, lcg_modulus_pos).
  unfold lcg_modulus in Hp.
  rewrite (to_ull_small (1013904223 + p)); unfold lcg_modulus; lia.
Qed.

Lemma lcg_step seed r :
  linear_congruent_generator seed (S r) =
  1013904223 + (1664525 * linear_congruent_generator seed r) mod lcg_modulus.
Proof.
  rewrite lcg_unfold.
  pose proof (lcg_bounds seed r) as Hr. unfold lcg_modulus in Hr.
  rewrite (wrap_small 64 (1664525 * _)) by lia.
  unfold to_ull.
  set (p := _ mod lcg_modulus).
  assert (Hp : 0 <= p < lcg_modulus)
    by (apply Z.mod_pos_bound, lcg_modulus_pos).
  apply wrap_small. unfold lcg_modulus in *; lia.
Qed.

Lemma lcg_base seed :
  0 <= seed -> 1664525 * seed < 2 ^ 64 ->
  linear_congruent_generator seed 0 =
  1013904223 + (1664525 * seed) mod lcg_modulus.
Proof.
  intros H0 H1. rewrite lcg_unfold. unfold to_ull.
  rewrite (wrap_small 64 seed) by lia.
  rewrite (wrap_small 64 (1664525 * seed)) by lia.
  set (p := _ mod lcg_modulus).
  assert (Hp : 0 <= p < lcg_modulus)
    by (apply Z.mod_pos_bound, lcg_modulus_pos).
  apply wrap_small. unfold lcg_modulus in *; lia.
Qed.

(** Reducing the code's step modulo the modulus gives the step of the
    specification. *)
Lemma spec_step_mod x y :
  x mod lcg_modulus = y mod lcg_modulus ->
  (1013904223 + (1664525 * x) mod lcg_modulus) mod lcg_modulus =
  (1013904223 + 1664525 * y) mod lcg_modulus.
Proof.
  intros Hxy. rewrite Zplus_mod_idemp_r.
  rewrite (Zplus_mod _ (1664525 * x)), (Zmult_mod 1664525 x), Hxy.
  rewrite <- Zmult_mod, <- Zplus_mod. reflexivity.
Qed.

(** The output reduced by the modulus is the state of the
    specification one step further on. *)
Lemma lcg_congruent seed rounds :
  0 <= seed -> 1664525 * seed < 2 ^ 64 ->
  linear_congruent_generator seed rounds mod lcg_modulus =
  spec_state seed (S rounds).
Proof.
  intros H0 H1. induction rounds as [| r IH].
  - rewrite lcg_base by assumption. simpl spec_state.
    now apply spec_step_mod.
  - rewrite lcg_step. change (spec_state seed (S (S r))) with
      ((1013904223 + 1664525 * spec_state seed (S r)) mod lcg_modulus).
    apply spec_step_mod. rewrite IH.
    simpl spec_state. now rewrite Z.mod_mod by (unfold lcg_modulus; lia).
Qed.

(** The call depth [rounds + 1] is enough, and the checked division
    never fails. *)
Lemma lcg_eval_enough seed :
  forall (depth : nat) (rounds : Z),
    0 <= rounds < 2 ^ 32 -> (Z.to_nat rounds < depth)%nat ->
    lcg_eval depth seed rounds =
    Some (linear_congruent_generator seed (Z.to_nat rounds)).
Proof.
  induction depth as [| d IH]; intros rounds Hr Hd; [lia |].
  cbn [lcg_eval]. destruct (Z.ltb_spec 0 rounds) as [Hpos | Hzero].
  - assert (Hw : to_unsigned (rounds - 1) = rounds - 1)
      by (apply wrap_small; lia).
    rewrite Hw, IH by lia. cbn [mbind option_bind].
    replace (Z.to_nat rounds) with (S (Z.to_nat (rounds - 1))) by lia.
    reflexivity.
  - replace rounds with 0 by lia. reflexivity.
Qed.

(** With a call depth of [rounds] or less the recursion is cut
    short: [rounds + 1] nested calls are needed. *)
Lemma lcg_eval_short seed :
  forall (depth : nat) (rounds : Z),
    0 <= rounds < 2 ^ 32 -> (depth <= Z.to_nat rounds)%nat ->
    lcg_eval depth seed rounds = None.
Proof.
  induction depth as [| d IH]; intros rounds Hr Hd; [reflexivity |].
  cbn [lcg_eval]. destruct (Z.ltb_spec 0 rounds) as [Hpos | Hzero]; [| lia].
  assert (Hw : to_unsigned (rounds - 1) = rounds - 1)
    by (apply wrap_small; lia).
  rewrite Hw, IH by lia. reflexivity.
Qed.

(** Two evaluations that return agree, whatever their depth. *)
Lemma lcg_eval_functional seed :
  forall (d1 d2 : nat) (rounds v1 v2 : Z),
    lcg_eval d1 seed rounds = Some v1 ->
    lcg_eval d2 seed rounds = Some v2 -> v1 = v2.
Proof.
  induction d1 as [| d1 IH]; intros [| d2] rounds v1 v2 H1 H2;
    try discriminate.
  cbn [lcg_eval] in H1, H2. destruct (0 <? rounds).
  - destruct (lcg_eval d1 seed _) as [i1 |] eqn:E1; [| discriminate].
    destruct (lcg_eval d2 seed _) as [i2 |] eqn:E2; [| discriminate].
    rewrite (IH _ _ _ _ E1 E2) in H1. congruence.
  - congruence.
Qed.

Lemma XORKEY_eq seed : XORKEY seed = Random seed mod 256.
Proof.
  unfold XORKEY, XSTR_RANDOM_NUMBER.
  change (to_ull (to_int (255 - 0 + 1))) with 256.
  rewrite Z.add_0_l. apply wrap_small.
  pose proof (Z.mod_pos_bound (Random seed) 256 eq_refl). lia.
Qed.

Lemma XORKEY_bounds seed : 0 <= XORKEY seed < 256.
Proof. rewrite XORKEY_eq. now apply Z.mod_pos_bound. Qed.

End KeyDerivation.

(** ** The transform at the level of stored patterns *)

Section Transform.

Variable cT : char_type.
Variable seed : Z.
Hypothesis width_ok : supported cT.

Let w_nonneg : 0 <= bits cT.
Proof. unfold supported in width_ok. lia. Qed.

Let w_le_32 : 0 <= bits cT <= 32.
Proof. unfold supported in width_ok. lia. Qed.

Lemma mask_in_range i : in_range cT (mask cT seed i).
Proof. unfold mask. now apply wrap_range. Qed.

(** The key operand of both transforms keeps the low bits of
    [XORKEY + index]. *)
Lemma key_operand idx :
  wrap (bits cT) (promote cT (static_cast cT (XORKEY seed)) + idx) =
  wrap (bits cT) (XORKEY seed + idx).
Proof.
  rewrite <- wrap_add, wrap_promote by assumption.
  unfold static_cast. rewrite wrap_idem by assumption. apply wrap_add.
Qed.

(** What the constructor stores for character [c] at position [i]. *)
Lemma encrypt_character_mask c (i : nat) :
  encrypt_character cT seed c (to_int (Z.of_nat i)) =
  Z.lxor (wrap (bits cT) c) (mask cT seed i).
Proof.
  unfold encrypt_character, static_cast at 1, mask.
  rewrite wrap_lxor, wrap_promote, wrap_to_int by assumption.
  rewrite key_operand. f_equal.
  rewrite Z.add_comm, <- wrap_add, wrap_to_int, wrap_add by assumption.
  f_equal. lia.
Qed.

(** What [decrypt] writes over character [c] at position [t]: the
    same mask at the same width. *)
Lemma decrypt_character_mask c (t : nat) :
  decrypt_character cT seed c (Z.of_nat t) =
  Z.lxor (wrap (bits cT) c) (mask cT seed t).
Proof.
  unfold decrypt_character, static_cast at 1, mask.
  rewrite wrap_lxor, !wrap_to_unsigned, wrap_promote by assumption.
  f_equal.
  rewrite <- wrap_add, wrap_to_unsigned, wrap_add by assumption.
  apply key_operand.
Qed.

(** Undoing the mask on a stored pattern. *)
Lemma decrypt_encrypt_character c (i : nat) :
  in_range cT c ->
  decrypt_character cT seed
    (encrypt_character cT seed c (to_int (Z.of_nat i))) (Z.of_nat i) = c.
Proof.
  intros Hc. rewrite decrypt_character_mask, encrypt_character_mask.
  rewrite (wrap_small _ c) by assumption.
  rewrite wrap_small by (apply lxor_in_range; auto using mask_in_range).
  now rewrite Z.lxor_assoc, Z.lxor_nilpotent, Z.lxor_0_r.
Qed.

(** A width of at least eight bits keeps a mask that is nonzero
    modulo 256 nonzero. *)
Lemma mask_nonzero i :
  (XORKEY seed + Z.of_nat i) mod 256 <> 0 -> mask cT seed i <> 0.
Proof.
  unfold mask. generalize (XORKEY seed + Z.of_nat i). intros x Hne Hz.
  apply Hne. pose proof (wrap_wrap_le 8 (bits cT) x) as Hw.
  rewrite Hz in Hw. unfold wrap at 2 in Hw. change (2 ^ 8) with 256 in Hw.
  rewrite <- Hw.
  - reflexivity.
  - unfold supported in width_ok. lia.
Qed.

End Transform.

(** ** The two loops over the buffer *)

Section Loops.

Variable cT : char_type.
Variable seed : Z.

(** A loop writing [f i] at every index [i] of [a, a + n). *)
Lemma write_loop_lookup (f : nat -> Z) :
  forall (n a : nat) (buf : list Z) (j : nat),
    foldl (fun b i => <[i := f i]> b) buf (seq a n) !! j =
    if decide ((a <= j < a + n)%nat /\ (j < length buf)%nat)
    then Some (f j) else buf !! j.
Proof.
  induction n as [| n IH]; intros a buf j; cbn [seq foldl].
  - case_decide; [lia | reflexivity].
  - rewrite IH, length_insert, list_lookup_insert.
    repeat case_decide; try reflexivity; try lia.
    destruct_and!; subst; reflexivity.
Qed.

Lemma write_loop_length (f : nat -> Z) :
  forall (n a : nat) (buf : list Z),
    length (foldl (fun b i => <[i := f i]> b) buf (seq a n)) = length buf.
Proof.
  induction n as [| n IH]; intros a buf; cbn [seq foldl]; [reflexivity |].
  now rewrite IH, length_insert.
Qed.

(** A loop replacing the element at every index [t] of [a, a + n) by
    [h t] of the element found there. *)
Lemma update_loop_lookup (h : Z -> nat -> Z) :
  forall (n a : nat) (buf : list Z) (j : nat),
    foldl (fun b t => <[t := h (string_at b t) t]> b) buf (seq a n) !! j =
    if decide (a <= j < a + n)%nat
    then (fun c => h c j) <$> buf !! j else buf !! j.
Proof.
  induction n as [| n IH]; intros a buf j; cbn [seq foldl].
  - case_decide; [lia | reflexivity].
  - rewrite IH, list_lookup_insert. unfold string_at.
    repeat case_decide; try reflexivity; try lia.
    + destruct_and!; subst.
      destruct (lookup_lt_is_Some_2 buf j) as [c Hc]; [assumption |].
      rewrite Hc. reflexivity.
    + assert (j = a) by lia. subst.
      rewrite (lookup_ge_None_2 buf a) by lia. reflexivity.
Qed.

Lemma update_loop_length (h : Z -> nat -> Z) :
  forall (n a : nat) (buf : list Z),
    length (foldl (fun b t => <[t := h (string_at b t) t]> b) buf (seq a n))
    = length buf.
Proof.
  induction n as [| n IH]; intros a buf; cbn [seq foldl]; [reflexivity |].
  now rewrite IH, length_insert.
Qed.

Lemma ctor_loop_length size string buf :
  length (ctor_loop cT seed size string buf) = length buf.
Proof. apply write_loop_length. Qed.

Lemma ctor_loop_lookup size string buf (j : nat) :
  length buf = size -> (j < size)%nat ->
  ctor_loop cT seed size string buf !! j =
  Some (encrypt_character cT seed (string_at string j) (to_int (Z.of_nat j))).
Proof.
  intros Hlen Hj. unfold ctor_loop.
  rewrite (write_loop_lookup
             (fun i => encrypt_character cT seed (string_at string i)
                         (to_int (Z.of_nat i)))).
  case_decide; [reflexivity | lia].
Qed.

Lemma decrypt_loop_length n buf :
  length (decrypt_loop cT seed n buf) = length buf.
Proof.
  apply (update_loop_length (fun c t => decrypt_character cT seed c (Z.of_nat t))).
Qed.

Lemma decrypt_loop_lookup n buf (j : nat) :
  decrypt_loop cT seed n buf !! j =
  if decide (j < n)%nat
  then (fun c => decrypt_character cT seed c (Z.of_nat j)) <$> buf !! j
  else buf !! j.
Proof.
  unfold decrypt_loop.
  rewrite (update_loop_lookup
             (fun c t => decrypt_character cT seed c (Z.of_nat t))).
  repeat case_decide; try reflexivity; lia.
Qed.

Lemma nb_chars_ctor size string :
  valid_size size ->
  _nb_chars (Xor_string_ctor cT seed size string) = (size - 1)%nat.
Proof.
  intros [H1 H2]. cbn [Xor_string_ctor _nb_chars].
  unfold to_unsigned. rewrite wrap_small by lia. lia.
Qed.

Lemma length_ctor size string :
  length (_string (Xor_string_ctor cT seed size string)) = size.
Proof.
  cbn [Xor_string_ctor _string]. now rewrite ctor_loop_length, length_replicate.
Qed.

Lemma length_decrypt x :
  length (_string (decrypt cT seed x)) = length (_string x).
Proof.
  cbn [decrypt _string]. now rewrite length_insert, decrypt_loop_length.
Qed.

(** One element of the buffer after [decrypt]. *)
Lemma decrypt_lookup x (j : nat) :
  _string (decrypt cT seed x) !! j =
  if decide (j = _nb_chars x /\ (j < length (_string x))%nat) then Some 0
  else if decide (j < _nb_chars x)%nat
       then (fun c => decrypt_character cT seed c (Z.of_nat j)) <$> _string x !! j
       else _string x !! j.
Proof.
  cbn [decrypt _string].
  rewrite list_lookup_insert, decrypt_loop_length, decrypt_loop_lookup.
  repeat case_decide; try reflexivity; lia.
Qed.

End Loops.

(** ** The object before and after [decrypt] *)

Section Object.

Variable cT : char_type.
Variable seed : Z.
Hypothesis width_ok : supported cT.

Lemma mask_eq (i : nat) :
  mask cT seed i = (XORKEY seed + Z.of_nat i) mod 2 ^ bits cT.
Proof. reflexivity. Qed.

(** The element the constructor stores at [j]. *)
Lemma ctor_lookup size (s : list Z) (j : nat) c :
  s !! j = Some c -> in_range cT c -> (j < size)%nat ->
  _string (Xor_string_ctor cT seed size s) !! j =
  Some (Z.lxor c (mask cT seed j)).
Proof.
  intros Hs Hc Hj. cbn [Xor_string_ctor _string].
  rewrite ctor_loop_lookup by (rewrite ?length_replicate; lia).
  unfold string_at. rewrite Hs. cbn [default].
  rewrite encrypt_character_mask by assumption.
  now rewrite wrap_small by assumption.
Qed.

(** Below the terminator slot, [decrypt] restores the character. *)
Lemma decrypt_ctor_lookup size (s : list Z) (j : nat) c :
  valid_size size ->
  s !! j = Some c -> in_range cT c -> (j < size - 1)%nat ->
  _string (decrypt cT seed (Xor_string_ctor cT seed size s)) !! j = Some c.
Proof.
  intros Hsz Hs Hc Hj.
  rewrite decrypt_lookup, nb_chars_ctor, length_ctor by assumption.
  rewrite (ctor_lookup size s j c) by (assumption || lia).
  repeat case_decide; try lia. cbn [fmap option_fmap option_map].
  rewrite decrypt_character_mask by assumption.
  rewrite wrap_small
    by (apply lxor_in_range; unfold supported in width_ok;
        auto using mask_in_range with lia).
  now rewrite Z.lxor_assoc, Z.lxor_nilpotent, Z.lxor_0_r.
Qed.

(** At the terminator slot, [decrypt] writes the terminator. *)
Lemma decrypt_terminator (x : Xor_string) :
  (_nb_chars x < length (_string x))%nat ->
  _string (decrypt cT seed x) !! _nb_chars x = Some 0.
Proof.
  intros Hlt. rewrite decrypt_lookup. case_decide; [reflexivity | lia].
Qed.

(** A second [decrypt] applies the mask to the restored character. *)
Lemma decrypt_twice_lookup size (s : list Z) (j : nat) c :
  valid_size size ->
  s !! j = Some c -> in_range cT c -> (j < size - 1)%nat ->
  _string (decrypt cT seed
             (decrypt cT seed (Xor_string_ctor cT seed size s))) !! j =
  Some (Z.lxor c (mask cT seed j)).
Proof.
  intros Hsz Hs Hc Hj.
  rewrite decrypt_lookup, length_decrypt, length_ctor.
  change (_nb_chars (decrypt cT seed (Xor_string_ctor cT seed size s)))
    with (_nb_chars (Xor_string_ctor cT seed size s)).
  rewrite nb_chars_ctor by assumption.
  rewrite (decrypt_ctor_lookup size s j c) by assumption.
  repeat case_decide; try lia. cbn [fmap option_fmap option_map].
  rewrite decrypt_character_mask by assumption.
  now rewrite wrap_small by assumption.
Qed.

(** The plaintext read back: the characters, then the terminator. *)
Lemma decrypt_ctor_string size (s : list Z) :
  valid_size size -> length s = size -> Forall (in_range cT) s ->
  _string (decrypt cT seed (Xor_string_ctor cT seed size s)) =
  take (size - 1) s ++ [0].
Proof.
  intros Hsz Hlen Hall. pose proof Hsz as [Hpos _].
  apply list_eq. intros j.
  destruct (Nat.lt_ge_cases j (size - 1)) as [Hlt | Hge].
  - destruct (lookup_lt_is_Some_2 s j) as [c Hc]; [lia |].
    rewrite (decrypt_ctor_lookup size s j c); try assumption.
    + rewrite lookup_app_l by (rewrite length_take; lia).
      now rewrite lookup_take_lt.
    + eapply Forall_lookup_1; eassumption.
  - rewrite lookup_app_r by (rewrite length_take; lia).
    rewrite length_take, Nat.min_l by lia.
    destruct (decide (j = (size - 1)%nat)) as [-> | Hne].
    + rewrite Nat.sub_diag. cbn [lookup list_lookup].
      rewrite <- (nb_chars_ctor cT seed size s) by assumption.
      apply decrypt_terminator.
      rewrite length_ctor, nb_chars_ctor by assumption. lia.
    + rewrite (lookup_ge_None_2 [0]) by (cbn [length]; lia).
      apply lookup_ge_None_2. rewrite length_decrypt, length_ctor. lia.
Qed.

End Object.

(** The stored patterns do not depend on whether the character type
    is signed, only on its width. *)
Lemma ctor_signedness_irrelevant cT cT' seed size (s : list Z) :
  supported cT -> bits cT' = bits cT ->
  Xor_string_ctor cT seed size s = Xor_string_ctor cT' seed size s.
Proof.
  intros Hw Hbits.
  assert (Hw' : supported cT') by (unfold supported in *; lia).
  unfold Xor_string_ctor. f_equal. apply list_eq. intros j.
  destruct (Nat.lt_ge_cases j size) as [Hlt | Hge].
  - rewrite !ctor_loop_lookup by (rewrite ?length_replicate; lia).
    f_equal. rewrite !encrypt_character_mask by assumption.
    unfold mask. now rewrite Hbits.
  - rewrite !lookup_ge_None_2; [reflexivity | |];
      rewrite ctor_loop_length, length_replicate; lia.
Qed.

(** ** The properties of the specification *)

(** The default build: seed 3421 gives the key 184. *)
Example XORKEY_default : XORKEY TBX_XSTR_SEED_default = 184.
Proof. reflexivity. Qed.

(** The output of the generator is not reduced below the modulus:
    with the default seed, five rounds give a value above
    [0xFFFFFFFF]. *)
Example lcg_exceeds_modulus :
  linear_congruent_generator TBX_XSTR_SEED_default 5 = 4663527553 /\
  lcg_modulus < linear_congruent_generator TBX_XSTR_SEED_default 5.
Proof. split; reflexivity. Qed.

(** C1 (round trip).  For every character type of the source, every
    seed and every plaintext [s] of [size] characters, constructing
    the object and calling [decrypt] yields the first [size - 1]
    characters of [s] followed by the terminator; when [s] ends with
    its terminator this is [s] itself. *)
Theorem round_trip cT seed size (s : list Z) :
  supported cT -> valid_size size -> length s = size ->
  Forall (in_range cT) s ->
  _string (decrypt cT seed (Xor_string_ctor cT seed size s))
  = take (size - 1) s ++ [0]
  /\ (s !! (size - 1)%nat = Some 0 ->
      _string (decrypt cT seed (Xor_string_ctor cT seed size s)) = s).
Proof.
  intros Hw Hsz Hlen Hall. pose proof Hsz as [Hpos _].
  split; [now apply decrypt_ctor_string |].
  intros Hterm. rewrite decrypt_ctor_string by assumption.
  rewrite <- (take_drop (size - 1) s) at 2. f_equal.
  apply list_eq. intros [| j].
  - rewrite lookup_drop, Nat.add_0_r. now rewrite Hterm.
  - rewrite lookup_drop. cbn [lookup list_lookup]. symmetry.
    rewrite ?lookup_nil. apply lookup_ge_None_2. lia.
Qed.

Lemma round_trip_witness :
  _string (decrypt char_signed TBX_XSTR_SEED_default
             (Xor_string_ctor char_signed TBX_XSTR_SEED_default 6 hello))
  = hello.
Proof.
  apply (proj2 (round_trip char_signed TBX_XSTR_SEED_default 6 hello
                  ltac:(unfold supported; concrete)
                  ltac:(split; concrete)
                  eq_refl
                  ltac:(all_in_range))).
  reflexivity.
Defined.

(** C2 as stated fails.  With the default seed the output of
    [linear_congruent_generator(10)] is not the state after ten steps
    of the recurrence; after five rounds it is not a state of the
    recurrence at all; and for a seed whose first product wraps at 64
    bits it is not even congruent to one. *)
Lemma lcg_rounds_counterexample :
  linear_congruent_generator TBX_XSTR_SEED_default 10
    <> spec_state TBX_XSTR_SEED_default 10
  /\ linear_congruent_generator TBX_XSTR_SEED_default 5
    <> spec_state TBX_XSTR_SEED_default 6
  /\ linear_congruent_generator (2 ^ 63) 10 mod lcg_modulus
    <> spec_state (2 ^ 63) 11.
Proof. repeat split; vm_compute; discriminate. Qed.

(** C2 (amended).  For a seed whose product with the multiplier fits
    64 bits, the generator steps [rounds + 1] times: its output is
    congruent modulo [0xFFFFFFFF] to the state of the recurrence after
    [rounds + 1] steps, and [linear_congruent_generator(10)] with the
    default seed is the state after eleven steps. *)
Theorem lcg_recurrence seed rounds :
  0 <= seed -> 1664525 * seed < 2 ^ 64 ->
  linear_congruent_generator seed rounds mod lcg_modulus
  = spec_state seed (S rounds)
  /\ Random TBX_XSTR_SEED_default = spec_state TBX_XSTR_SEED_default 11.
Proof.
  intros H0 H1. split; [now apply lcg_congruent | reflexivity].
Qed.

Lemma lcg_recurrence_witness :
  linear_congruent_generator 3421 10 mod lcg_modulus = spec_state 3421 11
  /\ Random TBX_XSTR_SEED_default = spec_state TBX_XSTR_SEED_default 11.
Proof.
  apply (lcg_recurrence 3421 10); concrete.
Defined.

(** C3 (ciphertext state, per-character transform).  For every index
    [i] below [size - 1] the constructed buffer holds at [i] the
    plaintext character exclusive-or'ed with [XORKEY + i] reduced to
    the width of the character type (8 bits for [char], the wide
    width for [wchar_t]); the transform of the constructor and the
    one of [decrypt] both apply exactly this mask. *)
Theorem ciphertext_state cT seed size (s : list Z) (i : nat) c :
  supported cT -> s !! i = Some c -> in_range cT c -> (i < size - 1)%nat ->
  _string (Xor_string_ctor cT seed size s) !! i
  = Some (Z.lxor c ((XORKEY seed + Z.of_nat i) mod 2 ^ bits cT))
  /\ encrypt_character cT seed c (to_int (Z.of_nat i))
     = Z.lxor c ((XORKEY seed + Z.of_nat i) mod 2 ^ bits cT)
  /\ decrypt_character cT seed c (Z.of_nat i)
     = Z.lxor c ((XORKEY seed + Z.of_nat i) mod 2 ^ bits cT).
Proof.
  intros Hw Hs Hc Hi. rewrite <- mask_eq. repeat split.
  - apply ctor_lookup; (assumption || lia).
  - rewrite encrypt_character_mask by assumption.
    now rewrite wrap_small by assumption.
  - rewrite decrypt_character_mask by assumption.
    now rewrite wrap_small by assumption.
Qed.

Lemma ciphertext_state_witness :
  _string (Xor_string_ctor char_signed TBX_XSTR_SEED_default 6 hello) !! 1%nat
  = Some (Z.lxor 101 ((XORKEY TBX_XSTR_SEED_default + Z.of_nat 1)
                      mod 2 ^ bits char_signed)).
Proof.
  apply (proj1 (ciphertext_state char_signed TBX_XSTR_SEED_default 6 hello
                  1%nat 101
                  ltac:(unfold supported; concrete)
                  eq_refl
                  ltac:(unfold in_range; concrete)
                  ltac:(concrete))).
Defined.

(** C4 (terminator).  After [decrypt] the element at index
    [size - 1] is the terminator, whatever the buffer held there: for
    every constructed object, and for every buffer of [size] elements
    at all.  Below that index the plaintext is read back, so a
    plaintext without inner zeros is terminated exactly at its
    length. *)
Theorem terminator_correct cT seed size (s buf : list Z) :
  supported cT -> valid_size size -> length s = size ->
  Forall (in_range cT) s -> length buf = size ->
  _string (decrypt cT seed (Xor_string_ctor cT seed size s)) !! (size - 1)%nat
  = Some 0
  /\ _string (decrypt cT seed (MkXor_string (size - 1) buf)) !! (size - 1)%nat
     = Some 0
  /\ ((forall (j : nat) c, (j < size - 1)%nat -> s !! j = Some c -> c <> 0) ->
      forall j : nat,
        _string (decrypt cT seed (Xor_string_ctor cT seed size s)) !! j = Some 0
        <-> j = (size - 1)%nat).
Proof.
  intros Hw Hsz Hlen Hall Hbuf. pose proof Hsz as [Hpos _].
  assert (Hterm :
    _string (decrypt cT seed (Xor_string_ctor cT seed size s)) !! (size - 1)%nat
    = Some 0).
  { pose proof (decrypt_terminator cT seed (Xor_string_ctor cT seed size s))
      as Hd.
    rewrite length_ctor, nb_chars_ctor in Hd by assumption. apply Hd. lia. }
  split; [exact Hterm | split].
  - apply (decrypt_terminator cT seed (MkXor_string (size - 1) buf)).
    cbn [_nb_chars _string]. lia.
  - intros Hnz j. split.
    + intros Hj. destruct (Nat.lt_trichotomy j (size - 1)) as [Hlt | [-> | Hgt]].
      * destruct (lookup_lt_is_Some_2 s j) as [c Hc]; [lia |].
        rewrite (decrypt_ctor_lookup cT seed Hw size s j c) in Hj;
          [| assumption | assumption | eapply Forall_lookup_1; eassumption
           | assumption].
        exfalso. apply (Hnz j c Hlt Hc). congruence.
      * reflexivity.
      * apply lookup_lt_Some in Hj.
        rewrite length_decrypt, length_ctor in Hj. lia.
    + intros ->. exact Hterm.
Qed.

Lemma terminator_correct_witness :
  _string (decrypt char_signed TBX_XSTR_SEED_default
             (MkXor_string (6 - 1) [1; 2; 3; 4; 5; 77])) !! (6 - 1)%nat
  = Some 0.
Proof.
  apply (proj1 (proj2
    (terminator_correct char_signed TBX_XSTR_SEED_default 6 hello
       [1; 2; 3; 4; 5; 77]
       ltac:(unfold supported; concrete)
       ltac:(split; concrete)
       eq_refl
       ltac:(all_in_range)
       eq_refl))).
Defined.

(** C5 (double decrypt).  At every index [i] below [size - 1] the
    first [decrypt] leaves the plaintext character, and a second
    [decrypt] on the object so decrypted replaces it by that character
    exclusive-or'ed with the mask again: the element the constructor
    had stored, which differs from the plaintext character wherever
    the mask is nonzero at the width of the character type.  The
    second call raises nothing: it returns a buffer of the same size,
    still terminated. *)
Theorem double_decrypt cT seed size (s : list Z) (i : nat) c :
  supported cT -> valid_size size -> s !! i = Some c -> in_range cT c ->
  (i < size - 1)%nat ->
  _string (decrypt cT seed (Xor_string_ctor cT seed size s)) !! i = Some c
  /\ (exists e,
        _string (decrypt cT seed
                   (decrypt cT seed (Xor_string_ctor cT seed size s))) !! i
        = Some e
        /\ e = Z.lxor c ((XORKEY seed + Z.of_nat i) mod 2 ^ bits cT)
        /\ _string (Xor_string_ctor cT seed size s) !! i = Some e
        /\ ((XORKEY seed + Z.of_nat i) mod 2 ^ bits cT <> 0 -> e <> c))
  /\ _string (decrypt cT seed
                (decrypt cT seed (Xor_string_ctor cT seed size s)))
       !! (size - 1)%nat
     = Some 0
  /\ length (_string (decrypt cT seed
                        (decrypt cT seed (Xor_string_ctor cT seed size s))))
     = size.
Proof.
  intros Hw Hsz Hs Hc Hi. pose proof Hsz as [Hpos _].
  rewrite <- mask_eq.
  split; [apply decrypt_ctor_lookup; assumption |].
  split.
  - exists (Z.lxor c (mask cT seed i)).
    split; [apply decrypt_twice_lookup; assumption |].
    split; [reflexivity |].
    split; [apply ctor_lookup; (assumption || lia) |].
    intros Hm Heq. apply lxor_fixed_iff in Heq. contradiction.
  - split.
    + pose proof (decrypt_terminator cT seed
                    (decrypt cT seed (Xor_string_ctor cT seed size s))) as Hd.
      rewrite length_decrypt, length_ctor in Hd.
      change (_nb_chars (decrypt cT seed (Xor_string_ctor cT seed size s)))
        with (_nb_chars (Xor_string_ctor cT seed size s)) in Hd.
      rewrite nb_chars_ctor in Hd by assumption. apply Hd. lia.
    + rewrite !length_decrypt. apply length_ctor.
Qed.

Lemma double_decrypt_witness :
  _string (decrypt char_signed TBX_XSTR_SEED_default
             (Xor_string_ctor char_signed TBX_XSTR_SEED_default 6 hello))
    !! 0%nat
  = Some 72
  /\ exists e,
       _string (decrypt char_signed TBX_XSTR_SEED_default
                  (decrypt char_signed TBX_XSTR_SEED_default
                     (Xor_string_ctor char_signed TBX_XSTR_SEED_default 6
                        hello)))
         !! 0%nat
       = Some e
       /\ e = Z.lxor 72 ((XORKEY TBX_XSTR_SEED_default + Z.of_nat 0)
                         mod 2 ^ bits char_signed)
       /\ _string (Xor_string_ctor char_signed TBX_XSTR_SEED_default 6 hello)
            !! 0%nat
          = Some e
       /\ ((XORKEY TBX_XSTR_SEED_default + Z.of_nat 0)
             mod 2 ^ bits char_signed <> 0 -> e <> 72).
Proof.
  pose proof
    (double_decrypt char_signed TBX_XSTR_SEED_default 6 hello 0%nat 72
       ltac:(unfold supported; concrete)
       ltac:(split; concrete)
       eq_refl
       ltac:(unfold in_range; concrete)
       ltac:(concrete)) as (H1 & H2 & _).
  exact (conj H1 H2).
Defined.

(** C6 (ciphertext non-triviality).  At every index [i] below
    [size - 1] where [(XORKEY + i) mod 256] is not zero, the buffer
    holds an element, and that element differs from the plaintext
    character. *)
Theorem ciphertext_nontrivial cT seed size (s : list Z) (i : nat) c :
  supported cT -> s !! i = Some c -> in_range cT c -> (i < size - 1)%nat ->
  (XORKEY seed + Z.of_nat i) mod 256 <> 0 ->
  exists e,
    _string (Xor_string_ctor cT seed size s) !! i = Some e /\ e <> c.
Proof.
  intros Hw Hs Hc Hi Hm. exists (Z.lxor c (mask cT seed i)).
  split; [apply ctor_lookup; (assumption || lia) |].
  intros Heq. apply lxor_fixed_iff in Heq.
  revert Heq. apply mask_nonzero; assumption.
Qed.

Lemma ciphertext_nontrivial_witness :
  exists e,
    _string (Xor_string_ctor wchar_32 TBX_XSTR_SEED_default 6 hello) !! 4%nat
    = Some e
    /\ e <> 111.
Proof.
  apply (ciphertext_nontrivial wchar_32 TBX_XSTR_SEED_default 6 hello 4%nat 111
           ltac:(unfold supported; concrete)
           eq_refl
           ltac:(unfold in_range; concrete)
           ltac:(concrete)).
  vm_compute. discriminate.
Defined.

(** C7 (key range).  For every seed the key is
    [0 + Random() % (0xFF - 0 + 1)] and lies in [0, 255]. *)
Theorem key_range seed :
  XORKEY seed = 0 + Random seed mod (255 - 0 + 1)
  /\ 0 <= XORKEY seed <= 255.
Proof.
  split.
  - apply XORKEY_eq.
  - pose proof (XORKEY_bounds seed). lia.
Qed.

(** C8 (determinism).  Two evaluations of the generator on the same
    seed and rounds that return, return the same value, whatever
    their call depth; two runs of the constructor's loop on plaintexts
    that agree on their [size] characters give the same buffer,
    whatever the storage held before, and so the same object, also
    when the two builds differ in the signedness of the character
    type. *)
Theorem key_and_ciphertext_deterministic seed rounds (d1 d2 : nat) v1 v2
    cT size (s1 s2 b1 b2 : list Z) :
  lcg_eval d1 seed rounds = Some v1 -> lcg_eval d2 seed rounds = Some v2 ->
  take size s1 = take size s2 -> length b1 = size -> length b2 = size ->
  v1 = v2
  /\ ctor_loop cT seed size s1 b1 = ctor_loop cT seed size s2 b2
  /\ Xor_string_ctor cT seed size s1 = Xor_string_ctor cT seed size s2
  /\ (forall cT', supported cT -> bits cT' = bits cT ->
      Xor_string_ctor cT seed size s1 = Xor_string_ctor cT' seed size s2).
Proof.
  intros E1 E2 Hs Hb1 Hb2.
  assert (Hloop : forall c1 c2 : list Z,
             length c1 = size -> length c2 = size ->
             ctor_loop cT seed size s1 c1 = ctor_loop cT seed size s2 c2).
  { intros c1 c2 Hc1 Hc2. apply list_eq. intros j.
    destruct (Nat.lt_ge_cases j size) as [Hlt | Hge].
    - rewrite !ctor_loop_lookup by assumption. unfold string_at.
      rewrite <- (lookup_take_lt s1 size j), <- (lookup_take_lt s2 size j)
        by assumption.
      now rewrite Hs.
    - rewrite !lookup_ge_None_2; [reflexivity | |];
        rewrite ctor_loop_length; lia. }
  split; [exact (lcg_eval_functional seed d1 d2 rounds v1 v2 E1 E2) |].
  split; [now apply Hloop |].
  assert (Hctor :
    Xor_string_ctor cT seed size s1 = Xor_string_ctor cT seed size s2).
  { unfold Xor_string_ctor. f_equal. apply Hloop; apply length_replicate. }
  split; [exact Hctor |].
  intros cT' Hw Hbits. rewrite Hctor. now apply ctor_signedness_irrelevant.
Qed.

Lemma key_and_ciphertext_deterministic_witness :
  4125016248 = 4125016248
  /\ ctor_loop char_signed 3421 6 hello [9; 9; 9; 9; 9; 9]
     = ctor_loop char_signed 3421 6 (hello ++ [33]) [0; 0; 0; 0; 0; 0]
  /\ Xor_string_ctor char_signed 3421 6 hello
     = Xor_string_ctor char_signed 3421 6 (hello ++ [33])
  /\ (forall cT', supported char_signed -> bits cT' = bits char_signed ->
      Xor_string_ctor char_signed 3421 6 hello
      = Xor_string_ctor cT' 3421 6 (hello ++ [33])).
Proof.
  apply (key_and_ciphertext_deterministic 3421 10 11 12 4125016248 4125016248 char_signed 6
           hello (hello ++ [33]) [9; 9; 9; 9; 9; 9] [0; 0; 0; 0; 0; 0]);
    reflexivity.
Defined.

(** C9 (totality).  For every seed and every [rounds] of the 32-bit
    unsigned type, the recursion returns once [rounds + 1] nested
    calls are allowed: the recursive call is on [rounds - 1] and stops
    at [rounds = 0], the division by the nonzero modulus never fails,
    and the value returned is that of [linear_congruent_generator],
    a 64-bit unsigned number. *)
Theorem lcg_total seed rounds (depth : nat) :
  0 <= rounds < 2 ^ 32 -> (Z.to_nat rounds < depth)%nat ->
  lcg_eval depth seed rounds
  = Some (linear_congruent_generator seed (Z.to_nat rounds))
  /\ 0 <= linear_congruent_generator seed (Z.to_nat rounds) < 2 ^ 64
  /\ lcg_modulus <> 0.
Proof.
  intros Hr Hd. split; [now apply lcg_eval_enough |].
  pose proof (lcg_bounds seed (Z.to_nat rounds)) as Hb.
  unfold lcg_modulus in *. split; [| discriminate].
  change (2 ^ 64) with 18446744073709551616. lia.
Qed.

Lemma lcg_total_witness :
  lcg_eval 11 TBX_XSTR_SEED_default 10
  = Some (linear_congruent_generator TBX_XSTR_SEED_default (Z.to_nat 10)).
Proof.
  apply (proj1 (lcg_total TBX_XSTR_SEED_default 10 11
                  ltac:(concrete) ltac:(concrete))).
Defined.

(** C10 (the terminator slot is encrypted too).  The constructor's
    loop covers index [size - 1]: for a plaintext ending with its
    terminator the stored element there is [XORKEY + (size - 1)]
    reduced to the width of the character type, which is not the
    terminator unless that mask is zero; the loop of [decrypt] leaves
    the slot as it is, and the terminator is there afterwards only
    through the final write of [decrypt]. *)
Theorem terminator_slot_encrypted cT seed size (s : list Z) :
  supported cT -> valid_size size -> s !! (size - 1)%nat = Some 0 ->
  _string (Xor_string_ctor cT seed size s) !! (size - 1)%nat
  = Some ((XORKEY seed + Z.of_nat (size - 1)) mod 2 ^ bits cT)
  /\ ((XORKEY seed + Z.of_nat (size - 1)) mod 2 ^ bits cT <> 0 ->
      _string (Xor_string_ctor cT seed size s) !! (size - 1)%nat <> Some 0)
  /\ decrypt_loop cT seed (_nb_chars (Xor_string_ctor cT seed size s))
       (_string (Xor_string_ctor cT seed size s)) !! (size - 1)%nat
     = _string (Xor_string_ctor cT seed size s) !! (size - 1)%nat
  /\ _string (decrypt cT seed (Xor_string_ctor cT seed size s)) !! (size - 1)%nat
     = Some 0.
Proof.
  intros Hw Hsz Hs. pose proof Hsz as [Hpos _].
  assert (Hz : in_range cT 0).
  { unfold in_range. split; [lia |]. apply Z.pow_pos_nonneg; [lia |].
    unfold supported in Hw. lia. }
  assert (Hstored :
    _string (Xor_string_ctor cT seed size s) !! (size - 1)%nat
    = Some ((XORKEY seed + Z.of_nat (size - 1)) mod 2 ^ bits cT)).
  { rewrite (ctor_lookup cT seed Hw size s (size - 1) 0) by (assumption || lia).
    now rewrite Z.lxor_0_l, mask_eq. }
  split; [exact Hstored |]. split; [| split].
  - intros Hm. rewrite Hstored. congruence.
  - rewrite decrypt_loop_lookup, nb_chars_ctor by assumption.
    case_decide; [lia | reflexivity].
  - pose proof (decrypt_terminator cT seed (Xor_string_ctor cT seed size s))
      as Hd.
    rewrite length_ctor, nb_chars_ctor in Hd by assumption. apply Hd. lia.
Qed.

Lemma terminator_slot_encrypted_witness :
  _string (Xor_string_ctor char_signed TBX_XSTR_SEED_default 6 hello) !! (6 - 1)%nat
  = Some ((XORKEY TBX_XSTR_SEED_default + Z.of_nat (6 - 1))
          mod 2 ^ bits char_signed).
Proof.
  apply (proj1 (terminator_slot_encrypted char_signed TBX_XSTR_SEED_default 6
                  hello
                  ltac:(unfold supported; concrete)
                  ltac:(split; concrete)
                  eq_refl)).
Defined.

(** ** Further properties of the object *)

Section ObjectInvariant.

Variable cT : char_type.
Variable seed : Z.
Hypothesis width_ok : supported cT.

Lemma encrypt_character_in_range c idx :
  in_range cT (encrypt_character cT seed c idx).
Proof.
  unfold encrypt_character, static_cast, in_range.
  apply wrap_range. unfold supported in width_ok. lia.
Qed.

Lemma decrypt_character_in_range c t :
  in_range cT (decrypt_character cT seed c t).
Proof.
  unfold decrypt_character, static_cast, in_range.
  apply wrap_range. unfold supported in width_ok. lia.
Qed.

Lemma zero_in_range : in_range cT 0.
Proof.
  unfold in_range. split; [lia |]. apply Z.pow_pos_nonneg; [lia |].
  unfold supported in width_ok. lia.
Qed.

Lemma well_formed_ctor size (s : list Z) :
  valid_size size -> well_formed cT size (Xor_string_ctor cT seed size s).
Proof.
  intros Hsz. split; [now apply nb_chars_ctor |].
  split; [apply length_ctor |].
  apply Forall_lookup. intros j c Hj.
  assert (Hlt : (j < size)%nat).
  { apply lookup_lt_Some in Hj. now rewrite length_ctor in Hj. }
  cbn [Xor_string_ctor _string] in Hj.
  rewrite ctor_loop_lookup in Hj by (rewrite ?length_replicate; lia).
  injection Hj as <-. apply encrypt_character_in_range.
Qed.

Lemma well_formed_decrypt size (x : Xor_string) :
  well_formed cT size x -> well_formed cT size (decrypt cT seed x).
Proof.
  intros (Hnb & Hlen & Hall). split; [exact Hnb |].
  split; [now rewrite length_decrypt |].
  apply Forall_lookup. intros j c Hj. rewrite decrypt_lookup in Hj.
  repeat case_decide.
  - injection Hj as <-. apply zero_in_range.
  - destruct (_string x !! j) as [c0 |]; [| discriminate].
    injection Hj as <-. apply decrypt_character_in_range.
  - eapply Forall_lookup_1; eassumption.
Qed.

(** One [decrypt] on a well-formed object, element by element. *)
Lemma decrypt_lookup_below size (x : Xor_string) (j : nat) c :
  well_formed cT size x -> (j < size - 1)%nat -> _string x !! j = Some c ->
  _string (decrypt cT seed x) !! j = Some (Z.lxor c (mask cT seed j)).
Proof.
  intros (Hnb & Hlen & Hall) Hj Hc.
  assert (Hr : in_range cT c) by (eapply Forall_lookup_1; eassumption).
  rewrite decrypt_lookup, Hnb, Hc. repeat case_decide; try lia.
  cbn [fmap option_fmap option_map].
  rewrite decrypt_character_mask by assumption.
  now rewrite wrap_small by exact Hr.
Qed.

Lemma decrypt_lookup_last size (x : Xor_string) :
  (1 <= size)%nat -> well_formed cT size x ->
  _string (decrypt cT seed x) !! (size - 1)%nat = Some 0.
Proof.
  intros Hpos (Hnb & Hlen & Hall). rewrite <- Hnb.
  apply decrypt_terminator. lia.
Qed.

(** Two calls of [decrypt] give back the elements below the last one. *)
Lemma decrypt_decrypt_string size (x : Xor_string) :
  (1 <= size)%nat -> well_formed cT size x ->
  _string (decrypt cT seed (decrypt cT seed x))
  = take (size - 1) (_string x) ++ [0].
Proof.
  intros Hpos Hx. pose proof (well_formed_decrypt size x Hx) as Hdx.
  pose proof Hx as (Hnb & Hlen & Hall).
  apply list_eq. intros j.
  destruct (Nat.lt_ge_cases j (size - 1)) as [Hlt | Hge].
  - destruct (lookup_lt_is_Some_2 (_string x) j) as [c Hc]; [lia |].
    rewrite (decrypt_lookup_below size (decrypt cT seed x) j
               (Z.lxor c (mask cT seed j)) Hdx Hlt)
      by (now apply (decrypt_lookup_below size x)).
    rewrite Z.lxor_assoc, Z.lxor_nilpotent, Z.lxor_0_r.
    rewrite lookup_app_l by (rewrite length_take; lia).
    now rewrite lookup_take_lt.
  - rewrite lookup_app_r by (rewrite length_take; lia).
    rewrite length_take, Nat.min_l by lia.
    destruct (decide (j = (size - 1)%nat)) as [-> | Hne].
    + rewrite Nat.sub_diag. cbn [lookup list_lookup].
      now apply decrypt_lookup_last.
    + rewrite (lookup_ge_None_2 [0]) by (cbn [length]; lia).
      apply lookup_ge_None_2. rewrite !length_decrypt. lia.
Qed.

(** A third call undoes the second. *)
Lemma decrypt_thrice size (x : Xor_string) :
  (1 <= size)%nat -> well_formed cT size x ->
  decrypt cT seed (decrypt cT seed (decrypt cT seed x)) = decrypt cT seed x.
Proof.
  intros Hpos Hx. pose proof (well_formed_decrypt size x Hx) as Hdx.
  pose proof Hdx as (Hnb & Hlen & Hall).
  assert (Hs : _string (decrypt cT seed (decrypt cT seed (decrypt cT seed x)))
               = _string (decrypt cT seed x)).
  { rewrite (decrypt_decrypt_string size _ Hpos Hdx).
    apply list_eq. intros j.
    destruct (Nat.lt_ge_cases j (size - 1)) as [Hlt | Hge].
    - rewrite lookup_app_l by (rewrite length_take; lia).
      now rewrite lookup_take_lt.
    - rewrite lookup_app_r by (rewrite length_take; lia).
      rewrite length_take, Nat.min_l by lia.
      destruct (decide (j = (size - 1)%nat)) as [-> | Hne].
      + rewrite Nat.sub_diag. cbn [lookup list_lookup]. symmetry.
        now apply decrypt_lookup_last.
      + rewrite (lookup_ge_None_2 [0]) by (cbn [length]; lia).
        symmetry. apply lookup_ge_None_2. lia. }
  destruct (decrypt cT seed (decrypt cT seed (decrypt cT seed x))) eqn:E3.
  destruct (decrypt cT seed x) eqn:E1.
  cbn [_string] in Hs. subst. f_equal.
  apply (f_equal _nb_chars) in E3. apply (f_equal _nb_chars) in E1.
  cbn [decrypt _nb_chars] in E3, E1. congruence.
Qed.

End ObjectInvariant.

Section ObjectFacts.

Lemma singleton_lookup (l : list Z) e :
  length l = 1%nat -> l !! 0%nat = Some e -> l = [e].
Proof.
  destruct l as [| a [| b l]]; cbn; intros Hl He; try discriminate.
  congruence.
Qed.

Lemma mod_add_cancel_l K a b M :
  (K + a) mod M = (K + b) mod M <-> a mod M = b mod M.
Proof.
  split; intros H.
  - replace a with ((K + a) - K) at 1 by ring.
    replace b with ((K + b) - K) at 1 by ring.
    now rewrite <- (Zminus_mod_idemp_l (K + a)), H, Zminus_mod_idemp_l.
  - now rewrite <- (Zplus_mod_idemp_r a), H, Zplus_mod_idemp_r.
Qed.

Lemma lxor_cancel_r a b m : Z.lxor a m = Z.lxor b m <-> a = b.
Proof.
  split; [| now intros ->]. intros H.
  apply (f_equal (fun v => Z.lxor v m)) in H.
  now rewrite !Z.lxor_assoc, !Z.lxor_nilpotent, !Z.lxor_0_r in H.
Qed.

Lemma lxor_cancel_l c a b : Z.lxor c a = Z.lxor c b <-> a = b.
Proof. rewrite !(Z.lxor_comm c). apply lxor_cancel_r. Qed.

(** The key is a pattern of every supported character type. *)
Lemma mask_zero cT seed : supported cT -> mask cT seed 0 = XORKEY seed.
Proof.
  intros Hw. unfold mask. pose proof (XORKEY_bounds seed) as Hk.
  generalize dependent (XORKEY seed). intros k Hk.
  rewrite Z.add_0_r. apply wrap_small. split; [lia |].
  apply Z.lt_le_trans with (2 ^ 8); [lia |].
  apply Z.pow_le_mono_r; unfold supported in Hw; lia.
Qed.

End ObjectFacts.

(** X1 (object invariant).  For every argument, well formed or not,
    the constructor builds an object whose length field is
    [size - 1] and whose buffer has [size] elements, each a pattern
    of the character type; [decrypt] keeps all three on every such
    object. *)
Theorem object_invariant cT seed size :
  supported cT -> valid_size size ->
  (forall s : list Z, well_formed cT size (Xor_string_ctor cT seed size s))
  /\ (forall x : Xor_string,
        well_formed cT size x -> well_formed cT size (decrypt cT seed x)).
Proof.
  intros Hw Hsz. split.
  - intros s. now apply well_formed_ctor.
  - intros x. now apply well_formed_decrypt.
Qed.

Lemma object_invariant_witness :
  well_formed char_signed 6
    (decrypt char_signed TBX_XSTR_SEED_default
       (Xor_string_ctor char_signed TBX_XSTR_SEED_default 6 [300; -1])).
Proof.
  pose proof (object_invariant char_signed TBX_XSTR_SEED_default 6
                ltac:(unfold supported; concrete)
                ltac:(split; concrete)) as [Hc Hd].
  apply Hd, Hc.
Defined.

(** X2 (decrypt alternates).  On a well-formed object every odd
    number of calls of [decrypt] leaves the object as one call does,
    and every even number of calls, two or more, leaves the buffer it
    started with below the last slot, with the terminator in the last
    slot. *)
Theorem decrypt_alternates cT seed size (x : Xor_string) (n : nat) :
  supported cT -> (1 <= size)%nat -> well_formed cT size x ->
  Nat.iter (2 * n + 1) (decrypt cT seed) x = decrypt cT seed x
  /\ _string (Nat.iter (2 * n + 2) (decrypt cT seed) x)
     = take (size - 1) (_string x) ++ [0].
Proof.
  intros Hw Hpos Hx.
  assert (Hodd : Nat.iter (2 * n + 1) (decrypt cT seed) x = decrypt cT seed x).
  { induction n as [| n IH]; [reflexivity |].
    replace (2 * S n + 1)%nat with (S (S (2 * n + 1))) by lia.
    cbn [Nat.iter nat_rect]. unfold Nat.iter in IH. rewrite IH.
    now apply (decrypt_thrice cT seed Hw size). }
  split; [exact Hodd |].
  replace (2 * n + 2)%nat with (S (2 * n + 1)) by lia.
  cbn [Nat.iter nat_rect]. unfold Nat.iter in Hodd. rewrite Hodd.
  now apply decrypt_decrypt_string.
Qed.

Lemma decrypt_alternates_witness :
  Nat.iter (2 * 1 + 1) (decrypt char_signed TBX_XSTR_SEED_default)
    (Xor_string_ctor char_signed TBX_XSTR_SEED_default 6 hello)
  = decrypt char_signed TBX_XSTR_SEED_default
      (Xor_string_ctor char_signed TBX_XSTR_SEED_default 6 hello).
Proof.
  apply (proj1 (decrypt_alternates char_signed TBX_XSTR_SEED_default 6
                  (Xor_string_ctor char_signed TBX_XSTR_SEED_default 6 hello) 1
                  ltac:(unfold supported; concrete)
                  ltac:(concrete)
                  ltac:(apply well_formed_ctor;
                        [unfold supported; concrete | split; concrete]))).
Defined.

(** X3 (the constructor is injective).  Two plaintexts of [size]
    characters that give the same object are the same plaintext. *)
Theorem ctor_injective cT seed size (s1 s2 : list Z) :
  supported cT -> length s1 = size -> length s2 = size ->
  Forall (in_range cT) s1 -> Forall (in_range cT) s2 ->
  Xor_string_ctor cT seed size s1 = Xor_string_ctor cT seed size s2 ->
  s1 = s2.
Proof.
  intros Hw H1 H2 F1 F2 Heq. apply list_eq. intros j.
  destruct (Nat.lt_ge_cases j size) as [Hlt | Hge].
  - destruct (lookup_lt_is_Some_2 s1 j) as [c1 Hc1]; [lia |].
    destruct (lookup_lt_is_Some_2 s2 j) as [c2 Hc2]; [lia |].
    assert (R1 : in_range cT c1) by exact (Forall_lookup_1 _ _ _ _ F1 Hc1).
    assert (R2 : in_range cT c2) by exact (Forall_lookup_1 _ _ _ _ F2 Hc2).
    pose proof (ctor_lookup cT seed Hw size s1 j c1 Hc1 R1 Hlt) as E1.
    pose proof (ctor_lookup cT seed Hw size s2 j c2 Hc2 R2 Hlt) as E2.
    rewrite Heq, E2 in E1. injection E1 as E1.
    apply lxor_cancel_r in E1. congruence.
  - rewrite !lookup_ge_None_2 by lia. reflexivity.
Qed.

Lemma ctor_injective_witness : hello = hello.
Proof.
  apply (ctor_injective char_signed TBX_XSTR_SEED_default 6 hello hello
           ltac:(unfold supported; concrete) eq_refl eq_refl
           ltac:(all_in_range) ltac:(all_in_range) eq_refl).
Defined.

(** X4 (period of the key stream).  The same character at two
    positions of the plaintext is stored as the same element exactly
    when the positions are congruent modulo [2^bits]: every 256
    positions for [char]. *)
Theorem equal_characters_period cT seed size (s : list Z) (i j : nat) c :
  supported cT -> s !! i = Some c -> s !! j = Some c -> in_range cT c ->
  (i < size)%nat -> (j < size)%nat ->
  _string (Xor_string_ctor cT seed size s) !! i
  = _string (Xor_string_ctor cT seed size s) !! j
  <-> Z.of_nat i mod 2 ^ bits cT = Z.of_nat j mod 2 ^ bits cT.
Proof.
  intros Hw Hi Hj Hc Hli Hlj.
  rewrite (ctor_lookup cT seed Hw size s i c Hi Hc Hli).
  rewrite (ctor_lookup cT seed Hw size s j c Hj Hc Hlj).
  unfold mask, wrap. generalize (XORKEY seed). intros k.
  rewrite <- (mod_add_cancel_l k). split.
  - intros H. injection H as H. now apply lxor_cancel_l in H.
  - now intros ->.
Qed.

Lemma equal_characters_period_witness :
  _string (Xor_string_ctor char_signed TBX_XSTR_SEED_default 6 hello) !! 2%nat
  = _string (Xor_string_ctor char_signed TBX_XSTR_SEED_default 6 hello) !! 3%nat
  <-> Z.of_nat 2 mod 2 ^ bits char_signed = Z.of_nat 3 mod 2 ^ bits char_signed.
Proof.
  apply (equal_characters_period char_signed TBX_XSTR_SEED_default 6 hello
           2%nat 3%nat 108
           ltac:(unfold supported; concrete) eq_refl eq_refl
           ltac:(unfold in_range; concrete) ltac:(concrete) ltac:(concrete)).
Defined.

(** X5 (where the plaintext is stored unmasked).  The stored element
    equals the plaintext character exactly when [XORKEY + i] is zero
    modulo [2^bits]; this happens at position [(- XORKEY) mod 2^bits]
    of any plaintext that long. *)
Theorem unmasked_position cT seed size (s : list Z) (i : nat) c :
  supported cT -> s !! i = Some c -> in_range cT c -> (i < size)%nat ->
  (_string (Xor_string_ctor cT seed size s) !! i = Some c
   <-> (XORKEY seed + Z.of_nat i) mod 2 ^ bits cT = 0)
  /\ (i = Z.to_nat ((- XORKEY seed) mod 2 ^ bits cT) ->
      _string (Xor_string_ctor cT seed size s) !! i = Some c).
Proof.
  intros Hw Hi Hc Hli.
  rewrite (ctor_lookup cT seed Hw size s i c Hi Hc Hli).
  unfold mask, wrap. generalize (XORKEY seed). intros k.
  assert (Hiff : Some (Z.lxor c ((k + Z.of_nat i) mod 2 ^ bits cT)) = Some c
                 <-> (k + Z.of_nat i) mod 2 ^ bits cT = 0).
  { rewrite <- lxor_fixed_iff. split; [now intros [= ->] | now intros ->]. }
  split; [exact Hiff |].
  intros ->. apply Hiff.
  assert (Hpos : 0 < 2 ^ bits cT)
    by (apply Z.pow_pos_nonneg; unfold supported in Hw; lia).
  rewrite Z2Nat.id by (apply Z.mod_pos_bound; exact Hpos).
  rewrite Zplus_mod_idemp_r, Z.add_opp_diag_r. now apply Z.mod_0_l, Z.neq_sym, Z.lt_neq.
Qed.

Lemma unmasked_position_witness :
  _string (Xor_string_ctor char_signed TBX_XSTR_SEED_default 80
             (replicate 80 65)) !! 72%nat = Some 65.
Proof.
  apply (proj2 (unmasked_position char_signed TBX_XSTR_SEED_default 80
                  (replicate 80 65) 72%nat 65
                  ltac:(unfold supported; concrete) eq_refl
                  ltac:(unfold in_range; concrete) ltac:(concrete))).
  reflexivity.
Defined.

(** X6 (the round trip needs the terminator).  The buffer after
    [decrypt] is the constructor's argument if and only if that
    argument ends with the terminator: [decrypt] overwrites whatever
    character the last position held. *)
Theorem round_trip_iff_terminated cT seed size (s : list Z) :
  supported cT -> valid_size size -> length s = size ->
  Forall (in_range cT) s ->
  _string (decrypt cT seed (Xor_string_ctor cT seed size s)) = s
  <-> s !! (size - 1)%nat = Some 0.
Proof.
  intros Hw Hsz Hlen Hall. pose proof Hsz as [Hpos _].
  pose proof (well_formed_ctor cT seed Hw size s Hsz) as Hwf.
  pose proof (decrypt_lookup_last cT seed size _ Hpos Hwf) as Hlast.
  split.
  - intros Heq. now rewrite Heq in Hlast.
  - intros Hterm. rewrite decrypt_ctor_string by assumption.
    apply list_eq. intros j.
    destruct (Nat.lt_ge_cases j (size - 1)) as [Hlt | Hge].
    + rewrite lookup_app_l by (rewrite length_take; lia).
      now rewrite lookup_take_lt.
    + rewrite lookup_app_r by (rewrite length_take; lia).
      rewrite length_take, Nat.min_l by lia.
      destruct (decide (j = (size - 1)%nat)) as [-> | Hne].
      * now rewrite Nat.sub_diag, Hterm.
      * rewrite (lookup_ge_None_2 [0]) by (cbn [length]; lia).
        symmetry. apply lookup_ge_None_2. lia.
Qed.

Lemma round_trip_iff_terminated_witness :
  _string (decrypt char_signed TBX_XSTR_SEED_default
             (Xor_string_ctor char_signed TBX_XSTR_SEED_default 3 [72; 105; 33]))
  = [72; 105; 33]
  <-> [72; 105; 33] !! (3 - 1)%nat = Some 0.
Proof.
  apply (round_trip_iff_terminated char_signed TBX_XSTR_SEED_default 3
           [72; 105; 33]
           ltac:(unfold supported; concrete) ltac:(split; concrete) eq_refl
           ltac:(all_in_range)).
Defined.

(** X7 (the empty literal).  For a literal with no character the
    constructor stores the key itself in the only slot, and [decrypt]
    returns the empty string whatever the argument was. *)
Theorem empty_literal cT seed :
  supported cT ->
  _string (Xor_string_ctor cT seed 1 [0]) = [XORKEY seed]
  /\ forall s : list Z,
       _string (decrypt cT seed (Xor_string_ctor cT seed 1 s)) = [0].
Proof.
  intros Hw.
  assert (Hsz : valid_size 1) by (split; [lia | reflexivity]).
  split.
  - apply singleton_lookup; [apply length_ctor |].
    rewrite (ctor_lookup cT seed Hw 1 [0] 0 0 eq_refl
               (zero_in_range cT Hw) ltac:(lia)).
    now rewrite Z.lxor_0_l, mask_zero.
  - intros s. apply singleton_lookup.
    + now rewrite length_decrypt, length_ctor.
    + apply (decrypt_lookup_last cT seed 1); [lia |].
      now apply well_formed_ctor.
Qed.

Lemma empty_literal_witness :
  _string (Xor_string_ctor wchar_16 TBX_XSTR_SEED_default 1 [0])
  = [XORKEY TBX_XSTR_SEED_default].
Proof.
  apply (proj1 (empty_literal wchar_16 TBX_XSTR_SEED_default
                  ltac:(unfold supported; concrete))).
Defined.

(** ** Further properties of the key derivation *)

(** X8 (seeds that share a key).  Adding a multiple of the modulus
    [0xFFFFFFFF] to the seed changes neither the output of the
    generator, for any number of rounds, nor the key, as long as the
    first product fits 64 bits. *)
Theorem seed_modulo_modulus seed k rounds :
  0 <= seed -> 0 <= k -> 1664525 * (seed + k * lcg_modulus) < 2 ^ 64 ->
  linear_congruent_generator (seed + k * lcg_modulus) rounds
  = linear_congruent_generator seed rounds
  /\ XORKEY (seed + k * lcg_modulus) = XORKEY seed.
Proof.
  intros Hs Hk Hfit.
  assert (Hm : 0 <= k * lcg_modulus) by (unfold lcg_modulus; lia).
  assert (Hall : forall r,
             linear_congruent_generator (seed + k * lcg_modulus) r
             = linear_congruent_generator seed r).
  { induction r as [| r IH].
    - rewrite !lcg_base by lia. f_equal.
      replace (1664525 * (seed + k * lcg_modulus))
        with (1664525 * seed + (1664525 * k) * lcg_modulus) by ring.
      apply Z.mod_add. discriminate.
    - now rewrite !lcg_step, IH. }
  split; [apply Hall |].
  rewrite !XORKEY_eq. unfold Random. now rewrite Hall.
Qed.

Lemma seed_modulo_modulus_witness :
  linear_congruent_generator (3421 + 2 * lcg_modulus) 10
  = linear_congruent_generator 3421 10
  /\ XORKEY (3421 + 2 * lcg_modulus) = XORKEY 3421.
Proof.
  apply (seed_modulo_modulus 3421 2 10); concrete.
Defined.

(** X9 (range of the generator).  For every seed and every number of
    rounds the output is at least the increment [1013904223] and
    below [1013904223 + 0xFFFFFFFF]: it is never zero, it may exceed
    [0xFFFFFFFF], and no sum of the recursion wraps at 64 bits. *)
Theorem lcg_output_range seed rounds :
  1013904223 <= linear_congruent_generator seed rounds
             < 1013904223 + lcg_modulus
  /\ linear_congruent_generator seed (S rounds)
     = 1013904223
       + (1664525 * linear_congruent_generator seed rounds) mod lcg_modulus.
Proof. split; [apply lcg_bounds | apply lcg_step]. Qed.

(** X10 (the output against the reduced recurrence).  For a seed whose
    first product fits 64 bits, the output is the state of the
    reduced recurrence after [rounds + 1] steps, or that state plus
    the modulus; the second case is the one where the output exceeds
    the bound of the comment in the source. *)
Theorem lcg_two_valued seed rounds :
  0 <= seed -> 1664525 * seed < 2 ^ 64 ->
  linear_congruent_generator seed rounds = spec_state seed (S rounds)
  \/ linear_congruent_generator seed rounds
     = spec_state seed (S rounds) + lcg_modulus.
Proof.
  intros H0 H1.
  pose proof (lcg_congruent seed rounds H0 H1) as Hc.
  pose proof (lcg_bounds seed rounds) as Hb.
  generalize dependent (linear_congruent_generator seed rounds).
  generalize (spec_state seed (S rounds)). unfold lcg_modulus.
  intros st v Hc Hb.
  pose proof (Z.div_mod v 4294967295 ltac:(discriminate)) as Hdm.
  pose proof (Z.mod_pos_bound v 4294967295 eq_refl) as Hmb.
  rewrite Hc in Hdm, Hmb.
  assert (Hq : v / 4294967295 = 0 \/ v / 4294967295 = 1) by lia.
  destruct Hq as [Hq | Hq]; rewrite Hq in Hdm; lia.
Qed.

Lemma lcg_two_valued_witness :
  linear_congruent_generator 3421 5 = spec_state 3421 6
  \/ linear_congruent_generator 3421 5 = spec_state 3421 6 + lcg_modulus.
Proof.
  apply (lcg_two_valued 3421 5); concrete.
Defined.

(** ** What the stored bytes reveal *)

(** X11 (one key stream for every string).  Two objects of the same
    build mask position [i] with the same value, whatever their sizes
    and contents: the exclusive or of their stored elements at [i] is
    the exclusive or of the two plaintext characters. *)
Theorem keystream_shared cT seed size1 size2 (s1 s2 : list Z) (i : nat) c1 c2 :
  supported cT ->
  s1 !! i = Some c1 -> s2 !! i = Some c2 ->
  in_range cT c1 -> in_range cT c2 ->
  (i < size1)%nat -> (i < size2)%nat ->
  exists e1 e2,
    _string (Xor_string_ctor cT seed size1 s1) !! i = Some e1
    /\ _string (Xor_string_ctor cT seed size2 s2) !! i = Some e2
    /\ Z.lxor e1 e2 = Z.lxor c1 c2.
Proof.
  intros Hw H1 H2 R1 R2 L1 L2.
  exists (Z.lxor c1 (mask cT seed i)), (Z.lxor c2 (mask cT seed i)).
  split; [now apply ctor_lookup |]. split; [now apply ctor_lookup |].
  generalize (mask cT seed i). intros m.
  rewrite Z.lxor_assoc, (Z.lxor_comm c2 m), <- (Z.lxor_assoc m m c2).
  now rewrite Z.lxor_nilpotent, Z.lxor_0_l.
Qed.

Lemma keystream_shared_witness :
  exists e1 e2,
    _string (Xor_string_ctor char_signed 3421 6 hello) !! 1%nat = Some e1
    /\ _string (Xor_string_ctor char_signed 3421 3 [72; 105; 0]) !! 1%nat
       = Some e2
    /\ Z.lxor e1 e2 = Z.lxor 101 105.
Proof.
  apply (keystream_shared char_signed 3421 6 3 hello [72; 105; 0] 1%nat 101 105
           ltac:(unfold supported; concrete) eq_refl eq_refl
           ltac:(unfold in_range; concrete) ltac:(unfold in_range; concrete)
           ltac:(concrete) ltac:(concrete)).
Defined.

(** X12 (the key from one known character).  The stored first element
    exclusive-or'ed with the first plaintext character is the key
    itself, for every supported character type; at any other position
    it is [XORKEY + i] reduced to the width of the type. *)
Theorem key_from_known_plaintext cT seed size (s : list Z) (i : nat) c :
  supported cT -> s !! i = Some c -> in_range cT c -> (i < size)%nat ->
  exists e,
    _string (Xor_string_ctor cT seed size s) !! i = Some e
    /\ Z.lxor e c = (XORKEY seed + Z.of_nat i) mod 2 ^ bits cT
    /\ (i = 0%nat -> Z.lxor e c = XORKEY seed).
Proof.
  intros Hw Hs Hc Hi. exists (Z.lxor c (mask cT seed i)).
  split; [apply ctor_lookup; assumption |].
  assert (Hx : Z.lxor (Z.lxor c (mask cT seed i)) c = mask cT seed i).
  { generalize (mask cT seed i). intros m.
    now rewrite (Z.lxor_comm c m), Z.lxor_assoc, Z.lxor_nilpotent, Z.lxor_0_r. }
  split; [rewrite Hx, mask_eq; reflexivity |].
  intros ->. rewrite Hx. apply mask_zero. assumption.
Qed.

Lemma key_from_known_plaintext_witness :
  exists e,
    _string (Xor_string_ctor wchar_32 3421 6 hello) !! 0%nat = Some e
    /\ Z.lxor e 72 = (XORKEY 3421 + Z.of_nat 0) mod 2 ^ bits wchar_32
    /\ (0%nat = 0%nat -> Z.lxor e 72 = XORKEY 3421).
Proof.
  apply (key_from_known_plaintext wchar_32 3421 6 hello 0%nat 72
           ltac:(unfold supported; concrete) eq_refl
           ltac:(unfold in_range; concrete) ltac:(concrete)).
Defined.

(** ** Platforms, macros, sizes *)

(** X13 ([decrypt] and the signedness of the character type).  On any
    object, [decrypt] compiled for a signed and for an unsigned
    character type of the same width writes the same buffer: the
    promotions to [int] and [unsigned] do not reach the stored bits. *)
Theorem decrypt_signedness_irrelevant cT cT' seed (x : Xor_string) :
  supported cT -> bits cT' = bits cT ->
  decrypt cT seed x = decrypt cT' seed x.
Proof.
  intros Hw Hbits.
  assert (Hw' : supported cT') by (unfold supported in *; lia).
  unfold decrypt. f_equal. f_equal.
  apply list_eq. intros j. rewrite !decrypt_loop_lookup.
  case_decide; [| reflexivity].
  destruct (_string x !! j) as [c |]; [| reflexivity].
  cbn [fmap option_fmap option_map]. f_equal.
  rewrite !decrypt_character_mask by assumption.
  unfold mask. now rewrite Hbits.
Qed.

Lemma decrypt_signedness_irrelevant_witness :
  decrypt char_signed 3421 (Xor_string_ctor char_signed 3421 6 hello)
  = decrypt char_unsigned 3421 (Xor_string_ctor char_signed 3421 6 hello).
Proof.
  apply (decrypt_signedness_irrelevant char_signed char_unsigned 3421
           (Xor_string_ctor char_signed 3421 6 hello)
           ltac:(unfold supported; concrete) eq_refl).
Defined.

(** X14 (the macros on a literal).  For a literal of characters [cs]
    followed by its terminator, the size the macros compute from
    [sizeof] is the number of elements of the literal, and
    [XorString] / [XorWideString] evaluate to the literal itself. *)
Theorem XorString_literal cT seed (cs : list Z) :
  supported cT -> Forall (in_range cT) cs ->
  Z.of_nat (length cs) + 1 < 2 ^ 32 ->
  macro_size cT (cs ++ [0]) = S (length cs)
  /\ XorString cT seed (cs ++ [0]) = cs ++ [0].
Proof.
  intros Hw Hall Hlen.
  assert (Hsize : macro_size cT (cs ++ [0]) = S (length cs)).
  { unfold macro_size, sizeof_literal, sizeof_Char.
    assert (Hk : 0 < bits cT / 8).
    { apply Z.div_str_pos. unfold supported in Hw. lia. }
    rewrite Z.div_mul by lia. rewrite Nat2Z.id, length_app.
    cbn [length]. lia. }
  split; [exact Hsize |].
  unfold XorString, XorS. rewrite Hsize.
  assert (Hsz : valid_size (S (length cs))) by (split; lia).
  rewrite decrypt_ctor_string; try assumption.
  - replace (S (length cs) - 1)%nat with (length cs) by lia.
    now rewrite take_app_length.
  - rewrite length_app. cbn [length]. lia.
  - apply Forall_app. split; [assumption |].
    apply Forall_cons. split; [now apply zero_in_range | apply Forall_nil_2].
Qed.

Lemma XorString_literal_witness :
  macro_size wchar_32 ([72; 105] ++ [0]) = S (length [72; 105])
  /\ XorString wchar_32 3421 ([72; 105] ++ [0]) = [72; 105] ++ [0].
Proof.
  apply (XorString_literal wchar_32 3421 [72; 105]
           ltac:(unfold supported; concrete) ltac:(all_in_range)
           ltac:(concrete)).
Defined.

(** X15 (a size smaller than the argument).  When the template size
    is smaller than the string passed to the constructor, only the
    first [size] characters are read, and [decrypt] returns the first
    [size - 1] of them followed by the terminator. *)
Theorem ctor_truncates cT seed size (s : list Z) :
  supported cT -> valid_size size -> (size <= length s)%nat ->
  Forall (in_range cT) s ->
  Xor_string_ctor cT seed size s = Xor_string_ctor cT seed size (take size s)
  /\ _string (decrypt cT seed (Xor_string_ctor cT seed size s))
     = take (size - 1) s ++ [0].
Proof.
  intros Hw Hsz Hlen Hall.
  assert (Heq : Xor_string_ctor cT seed size s
                = Xor_string_ctor cT seed size (take size s)).
  { unfold Xor_string_ctor. f_equal. apply list_eq. intros j.
    destruct (Nat.lt_ge_cases j size) as [Hlt | Hge].
    - rewrite !ctor_loop_lookup by (rewrite ?length_replicate; lia).
      unfold string_at. now rewrite lookup_take_lt.
    - rewrite !lookup_ge_None_2; [reflexivity | |];
        rewrite ctor_loop_length, length_replicate; lia. }
  split; [exact Heq |].
  rewrite Heq, decrypt_ctor_string; try assumption.
  - rewrite take_take. f_equal. f_equal. lia.
  - rewrite length_take. lia.
  - now apply Forall_take.
Qed.

Lemma ctor_truncates_witness :
  Xor_string_ctor char_signed 3421 3 hello
  = Xor_string_ctor char_signed 3421 3 (take 3 hello)
  /\ _string (decrypt char_signed 3421 (Xor_string_ctor char_signed 3421 3 hello))
     = take (3 - 1) hello ++ [0].
Proof.
  apply (ctor_truncates char_signed 3421 3 hello
           ltac:(unfold supported; concrete) ltac:(split; concrete)
           ltac:(cbn; lia) ltac:(all_in_range)).
Defined.

(** ** The scope-exit helper *)

Section DeferFacts.

Variable State : Type.

Lemma leave_app (l1 l2 : list (Defer.deferrer State)) (s : State) :
  Defer.leave State (l1 ++ l2) s = Defer.leave State l2 (Defer.leave State l1 s).
Proof. unfold Defer.leave. apply foldl_app. Qed.

(** An object declared before all the live ones is destroyed after
    everything the block does. *)
Lemma run_oldest (body : list (Defer.stmt State)) :
  forall (live : list (Defer.deferrer State)) (d : Defer.deferrer State)
         (s : State),
    Defer.run State body (live ++ [d]) s
    = Defer.deferrer_dtor State d (Defer.run State body live s).
Proof.
  induction body as [| st rest IH]; intros live d s; cbn [Defer.run].
  - now rewrite leave_app.
  - destruct st as [a | g |].
    + apply IH.
    + apply (IH (Defer.defer_mul State Defer.DeferDummy g :: live)).
    + now rewrite leave_app.
Qed.

End DeferFacts.

(** X16 (a deferred call runs last, whatever the exit).  A block that
    starts with [defer g] behaves as the rest of the block followed
    by [g], whether the rest runs to its end or returns early; so
    several deferred calls run in the reverse order of their
    declaration. *)
Theorem defer_runs_last (State : Type) (g : State -> State)
    (rest : list (Defer.stmt State)) (gs : list (State -> State)) (s : State) :
  Defer.block State (Defer.Defer State g :: rest) s
  = g (Defer.block State rest s)
  /\ Defer.block State (map (Defer.Defer State) gs) s
     = foldr (fun h s' => h s') s gs.
Proof.
  split.
  - unfold Defer.block. cbn [Defer.run].
    apply (run_oldest State rest [] (Defer.defer_mul State Defer.DeferDummy g)).
  - revert s. induction gs as [| h gs IH]; intros s; [reflexivity |].
    cbn [map foldr]. rewrite <- IH. unfold Defer.block. cbn [Defer.run].
    apply (run_oldest State _ [] (Defer.defer_mul State Defer.DeferDummy h)).
Qed.

(** X17 (what runs at a [return]).  A block that declares the
    deferred calls [gs], runs the statements [acts] and then reaches
    [return] ends in the state the statements leave, in their order,
    followed by the deferred calls, the one declared last first;
    whatever is placed after the [return], statement or [defer], does
    not run. *)
Theorem deferred_calls_run_at_return (State : Type)
    (gs acts : list (State -> State)) (post : list (Defer.stmt State))
    (s : State) :
  Defer.block State
    (map (Defer.Defer State) gs ++ map (Defer.Do State) acts
       ++ Defer.Return State :: post) s
  = foldr (fun h s' => h s') (foldl (fun s' a => a s') s acts) gs.
Proof.
  revert s. induction gs as [| h gs IH]; intros s.
  - cbn [map app foldr]. unfold Defer.block.
    revert s. induction acts as [| a acts IHa]; intros s; [reflexivity |].
    cbn [map app Defer.run foldl]. apply IHa.
  - cbn [map app foldr]. rewrite <- IH. unfold Defer.block. cbn [Defer.run].
    apply (run_oldest State _ [] (Defer.defer_mul State Defer.DeferDummy h)).
Qed.
